(** * Pointer-to-pixel mapping and outside-click detection

    A shallow embedding of [js/imageeditor/shared/types.ts]:

    - [get_coordinates_of_clicked_image] maps a mouse event on a scaled,
      letterboxed [<img>] to a pixel of the image's natural resolution;
    - [click_outside] installs a capturing click listener on the document
      and calls a callback for clicks that land outside a node.

    The mapper is written once over an interface [Number] of the arithmetic
    it uses (subtraction, multiplication, division, [Math.round], [<], [>],
    [>=]).  Two instances are given:

    - [Float64]: JavaScript's Number type, IEEE-754 binary64, carried by
      Rocq's primitive floats.  This is the arithmetic the code runs on.
    - [Exact]: rational numbers with exact operations.  This is the
      arithmetic in which the geometry of the mapper is usually explained.

    Statements that only depend on the shape of the code are proved for
    every instance; statements about concrete clicks are evaluated on
    [Float64]; geometric laws that rounding errors break on doubles are
    proved on [Exact], next to the double-precision inputs where they fail. *)

From Stdlib Require Import ZArith NArith QArith Qround Lia Bool List String.
From Stdlib Require Import Floats Lqa.
From Stdlib Require Import Qminmax.
Import ListNotations.
Close Scope Q_scope.

(** ** The arithmetic interface *)

Class Number (num : Type) : Type := {
  (** a DOM [unsigned long], or a small integer literal, as a Number *)
  of_uint : N -> num;
  sub : num -> num -> num;
  mul : num -> num -> num;
  div : num -> num -> num;
  Math_round : num -> num;
  (** [lt a b] is [a < b] and [b > a]; [le a b] is [a <= b] and [b >= a] *)
  lt : num -> num -> bool;
  le : num -> num -> bool
}.

Declare Scope js_scope.
Delimit Scope js_scope with js.
Notation "a - b" := (sub a b) : js_scope.
Notation "a * b" := (mul a b) : js_scope.
Notation "a / b" := (div a b) : js_scope.
Notation "a <? b" := (lt a b) (at level 70, no associativity) : js_scope.
Notation "a >? b" := (lt b a) (at level 70, no associativity) : js_scope.
Notation "a >=? b" := (le b a) (at level 70, no associativity) : js_scope.

(** ** The DOM objects the mapper reads *)

Module DOMRect.
Record t (num : Type) : Type := mk {
  left : num;
  top : num;
  width : num;
  height : num
}.
Arguments mk {num}.
Arguments left {num}.
Arguments top {num}.
Arguments width {num}.
Arguments height {num}.
End DOMRect.

(** [naturalWidth] and [naturalHeight] are [unsigned long] attributes;
    [getBoundingClientRect] is the rectangle the method returns. *)
Record HTMLImageElement (num : Type) : Type := {
  naturalWidth : N;
  naturalHeight : N;
  getBoundingClientRect : DOMRect.t num
}.
Arguments Build_HTMLImageElement {num}.
Arguments naturalWidth {num}.
Arguments naturalHeight {num}.
Arguments getBoundingClientRect {num}.

Record MouseEvent (num : Type) : Type := {
  clientX : num;
  clientY : num;
  currentTarget : HTMLImageElement num
}.
Arguments Build_MouseEvent {num}.
Arguments clientX {num}.
Arguments clientY {num}.
Arguments currentTarget {num}.

(** ** [get_coordinates_of_clicked_image] *)

Section Mapper.
Context {num : Type} `{Number num}.
Local Open Scope js_scope.

Definition xScale_of (image : HTMLImageElement num) : num :=
  of_uint (naturalWidth image) / DOMRect.width (getBoundingClientRect image).

Definition yScale_of (image : HTMLImageElement num) : num :=
  of_uint (naturalHeight image) / DOMRect.height (getBoundingClientRect image).

(** The body of the [if (xScale > yScale)] branch: the values of [x] and [y]. *)
Definition width_constrained (evt : MouseEvent num) : num * num :=
  let image := currentTarget evt in
  let imageRect := getBoundingClientRect image in
  let xScale := xScale_of image in
  let displayed_height := of_uint (naturalHeight image) / xScale in
  let y_offset := (DOMRect.height imageRect - displayed_height) / of_uint 2 in
  let x := Math_round ((clientX evt - DOMRect.left imageRect) * xScale) in
  let y := Math_round ((clientY evt - DOMRect.top imageRect - y_offset) * xScale) in
  (x, y).

(** The body of the [else] branch. *)
Definition height_constrained (evt : MouseEvent num) : num * num :=
  let image := currentTarget evt in
  let imageRect := getBoundingClientRect image in
  let yScale := yScale_of image in
  let displayed_width := of_uint (naturalWidth image) / yScale in
  let x_offset := (DOMRect.width imageRect - displayed_width) / of_uint 2 in
  let x := Math_round ((clientX evt - DOMRect.left imageRect - x_offset) * yScale) in
  let y := Math_round ((clientY evt - DOMRect.top imageRect) * yScale) in
  (x, y).

(** [x] and [y] as they stand when control reaches the bounds check. *)
Definition clicked_point (evt : MouseEvent num) : num * num :=
  let image := currentTarget evt in
  if xScale_of image >? yScale_of image
  then width_constrained evt
  else height_constrained evt.

(** The two arguments of [Math.round] on the path taken: the coordinates
    before rounding. *)
Definition unrounded_point (evt : MouseEvent num) : num * num :=
  let image := currentTarget evt in
  let imageRect := getBoundingClientRect image in
  let xScale := xScale_of image in
  let yScale := yScale_of image in
  if xScale >? yScale
  then
    let y_offset :=
      (DOMRect.height imageRect - of_uint (naturalHeight image) / xScale) / of_uint 2 in
    ((clientX evt - DOMRect.left imageRect) * xScale,
     (clientY evt - DOMRect.top imageRect - y_offset) * xScale)
  else
    let x_offset :=
      (DOMRect.width imageRect - of_uint (naturalWidth image) / yScale) / of_uint 2 in
    ((clientX evt - DOMRect.left imageRect - x_offset) * yScale,
     (clientY evt - DOMRect.top imageRect) * yScale).

(** The condition of the final [if]. *)
Definition out_of_bounds (image : HTMLImageElement num) (p : num * num) : bool :=
  let '(x, y) := p in
  (x <? of_uint 0) || (x >=? of_uint (naturalWidth image))
  || (y <? of_uint 0) || (y >=? of_uint (naturalHeight image)).

Definition get_coordinates_of_clicked_image (evt : MouseEvent num)
  : option (num * num) :=
  let image := currentTarget evt in
  let p := clicked_point evt in
  if out_of_bounds image p then None else Some p.

End Mapper.

(** An event from its parts: pointer position, natural size, bounding box. *)
Definition pointer_event {num : Type} (cx cy : num) (nw nh : N) (l t w h : num)
  : MouseEvent num :=
  {| clientX := cx; clientY := cy;
     currentTarget :=
       {| naturalWidth := nw; naturalHeight := nh;
          getBoundingClientRect := DOMRect.mk l t w h |} |}.

(** ** JavaScript numbers: IEEE-754 binary64 *)

Module Float64.

(** The value of a finite double, counted in units of [2^-1074] (the
    smallest positive double), so that it is an integer. *)
Definition units (x : spec_float) : Z :=
  match x with
  | S754_finite s m e => (cond_Zopp s (Zpos m) * 2 ^ (e + 1074))%Z
  | _ => 0%Z
  end.

(** The double that equals the integer [n] (exact for [|n| < 2^53]). *)
Definition SF_of_Z (n : Z) : spec_float :=
  match n with
  | Z0 => S754_zero false
  | _ =>
    let d := (Z.log2 (Z.abs n) + 1)%Z in
    if (d <=? 53)%Z
    then S754_finite (n <? 0)%Z (Z.to_pos (Z.abs n * 2 ^ (53 - d))) (d - 53)
    else binary_normalize prec emax n 0 false
  end.

Definition of_Z (n : Z) : float := SF2Prim (SF_of_Z n).

(** [floor (u / 2^1074 + 1/2)]: the integer nearest to a value of [u]
    units, the upper one of two that are equally near. *)
Definition nearest (u : Z) : Z := ((2 * u + 2 ^ 1074) / 2 ^ 1075)%Z.

Definition SFfinite (x : spec_float) : bool :=
  match x with
  | S754_zero _ | S754_finite _ _ _ => true
  | _ => false
  end.

(** [Math.round] (ECMA-262, Math.round): NaN, the infinities, the zeros and
    integral values are returned as they are; any other [x] goes to the
    integral Number closest to it, the one closer to +infinity in a tie,
    that is to [floor (x + 1/2)] computed exactly; a result of zero keeps
    the sign of [x]. *)
Definition SFround (x : spec_float) : spec_float :=
  match x with
  | S754_finite s m e =>
    if (0 <=? e)%Z then x
    else match nearest (units x) with
         | Z0 => S754_zero s
         | n => SF_of_Z n
         end
  | _ => x
  end.

Definition round (x : float) : float := SF2Prim (SFround (Prim2SF x)).

(** The arithmetic of the code.  An [unsigned long] is below [2^32], so its
    conversion is exact. *)
#[global] Instance number : Number float := {
  of_uint n := of_Z (Z.of_N n);
  sub := PrimFloat.sub;
  mul := PrimFloat.mul;
  div := PrimFloat.div;
  Math_round := round;
  lt := PrimFloat.ltb;
  le := PrimFloat.leb
}.

(** The real value of a double as a rational (0 for NaN and infinities). *)
Definition F2Q (x : float) : Q := Qmake (units (Prim2SF x)) (2 ^ 1074).

(** [Number.isFinite]. *)
Definition isFinite (x : float) : bool := SFfinite (Prim2SF x).

(** [x] is a number holding an integer of the interval [[0, n)]. *)
Definition pixel_index (x : float) (n : N) : Prop :=
  isFinite x = true /\ exists i : Z, (0 <= i < Z.of_N n)%Z /\ (F2Q x == inject_Z i)%Q.

End Float64.

(** ** Exact rational arithmetic *)

Module Exact.

(** Nearest integer, ties toward +infinity, as [Math.round]. *)
Definition round (q : Q) : Q := inject_Z (Qfloor (q + (1 # 2))%Q).

#[global] Instance number : Number Q := {
  of_uint n := inject_Z (Z.of_N n);
  sub := Qminus;
  mul := Qmult;
  div := Qdiv;
  Math_round := round;
  lt a b := negb (Qle_bool b a);
  le := Qle_bool
}.

End Exact.

(** ** [click_outside] *)

Module ClickOutside.

(** A DOM node: its identity and its child nodes. *)
#[warnings="-register-all"] Inductive Node : Type := Element (id : nat) (childNodes : list Node).

Definition node_id (n : Node) : nat :=
  match n with Element id _ => id end.

Definition childNodes (n : Node) : list Node :=
  match n with Element _ cs => cs end.

(** The identities of a node's inclusive descendants, in tree order. *)
Fixpoint inclusive_descendants (n : Node) : list nat :=
  match n with
  | Element id cs => id :: flat_map inclusive_descendants cs
  end.

(** [node.contains(other)]: [other] is [node] or one of its descendants;
    false when [other] is null. *)
Definition contains (node : Node) (other : option Node) : bool :=
  match other with
  | None => false
  | Some o => existsb (Nat.eqb (node_id o)) (inclusive_descendants node)
  end.

(** [descendant node d]: [d] lies strictly below [node]. *)
Inductive descendant : Node -> Node -> Prop :=
| descendant_child node c :
    In c (childNodes node) -> descendant node c
| descendant_below node c d :
    In c (childNodes node) -> descendant c d -> descendant node d.

(** [outside n t]: the event target [t] is not the node [n] and is not one
    of its descendants. *)
Definition outside (n : Node) (t : option Node) : Prop :=
  forall o, t = Some o ->
    node_id o <> node_id n /\ forall d, descendant n d -> node_id d <> node_id o.

(** The fields of the click event that the handler reads. *)
Record Click : Type := {
  target : option Node;
  defaultPrevented : bool
}.

(** The callback [cb] is opaque to [click_outside]; of what it does, only
    whether it calls [event.preventDefault()] can matter to later listeners
    of the same click. *)
Record Callback : Type := {
  cb_name : nat;
  calls_preventDefault : bool
}.

(** [handle_click] for the captured [node] and [cb]: the calls [cb(event)]
    it makes.  A null (or undefined) [node] is falsy. *)
Definition handle_click (node : option Node) (cb : Callback) (event : Click)
  : list (Callback * Click) :=
  match node with
  | Some n =>
    if negb (contains n (target event)) && negb (defaultPrevented event)
    then [(cb, event)]
    else []
  | None => []
  end.

(** An entry of the document's event listener list.  [listener] is the
    identity of the function object; here every function object is a
    [handle_click] closure over [node] and [cb]. *)
Record Listener : Type := {
  type : string;
  listener : nat;
  node : option Node;
  cb : Callback;
  useCapture : bool
}.

Record Call : Type := {
  caller : nat;
  callee : Callback;
  argument : Click
}.

(** The document: its listener list, the next unused function identity,
    and the callback calls made so far (oldest first). *)
Record Document : Type := {
  listeners : list Listener;
  fresh : nat;
  calls : list Call
}.

Definition empty_document : Document :=
  {| listeners := []; fresh := 0; calls := [] |}.

Definition same_listener (ty : string) (fn : nat) (capture : bool) (l : Listener)
  : bool :=
  String.eqb (type l) ty && Nat.eqb (listener l) fn && Bool.eqb (useCapture l) capture.

(** [document.addEventListener]: appends, unless the same type, function
    and capture flag are already listed. *)
Definition addEventListener (l : Listener) (doc : Document) : Document :=
  if existsb (same_listener (type l) (listener l) (useCapture l)) (listeners doc)
  then doc
  else {| listeners := listeners doc ++ [l]; fresh := fresh doc; calls := calls doc |}.

(** [document.removeEventListener]: drops the matching entry, if any. *)
Definition removeEventListener (ty : string) (fn : nat) (capture : bool)
  (doc : Document) : Document :=
  {| listeners := filter (fun l => negb (same_listener ty fn capture l)) (listeners doc);
     fresh := fresh doc;
     calls := calls doc |}.

(** The object [click_outside] returns: [destroy] closes over [handle_click]. *)
Record Handle : Type := { handle_click_of : nat }.

Definition click_outside (n : option Node) (c : Callback) (doc : Document)
  : Document * Handle :=
  let fn := fresh doc in
  let doc' := {| listeners := listeners doc; fresh := S fn; calls := calls doc |} in
  (addEventListener
     {| type := "click"; listener := fn; node := n; cb := c; useCapture := true |}
     doc',
   {| handle_click_of := fn |}).

Definition destroy (h : Handle) (doc : Document) : Document :=
  removeEventListener "click" (handle_click_of h) true doc.

(** Running listeners on one event, in order: each call is logged, and a
    callback that prevents the default marks the event for the listeners
    after it. *)
Definition after_calls (event : Click) (made : list (Callback * Click)) : Click :=
  if existsb (fun ce => calls_preventDefault (fst ce)) made
  then {| target := target event; defaultPrevented := true |}
  else event.

Fixpoint run_listeners (ls : list Listener) (event : Click) : list Call :=
  match ls with
  | [] => []
  | l :: rest =>
    let made := handle_click (node l) (cb l) event in
    map (fun ce => {| caller := listener l; callee := fst ce; argument := snd ce |}) made
    ++ run_listeners rest (after_calls event made)
  end.

(** A click whose path passes the document: its capturing click listeners
    run first, its bubbling ones after them. *)
Definition click_listeners (doc : Document) : list Listener :=
  filter (fun l => String.eqb (type l) "click" && useCapture l) (listeners doc)
  ++ filter (fun l => String.eqb (type l) "click" && negb (useCapture l)) (listeners doc).

Definition dispatch_click (event : Click) (doc : Document) : Document :=
  {| listeners := listeners doc;
     fresh := fresh doc;
     calls := calls doc ++ run_listeners (click_listeners doc) event |}.

(** What can happen to the document. *)
Inductive Action : Type :=
| Install (n : option Node) (c : Callback)
| Teardown (h : Handle)
| UserClick (event : Click).

Definition step (doc : Document) (a : Action) : Document :=
  match a with
  | Install n c => fst (click_outside n c doc)
  | Teardown h => destroy h doc
  | UserClick event => dispatch_click event doc
  end.

Definition run (doc : Document) (acts : list Action) : Document :=
  fold_left step acts doc.

(** The calls made through the listener of handle [h]. *)
Definition calls_through (h : Handle) (doc : Document) : list Call :=
  filter (fun c => Nat.eqb (caller c) (handle_click_of h)) (calls doc).

Definition installed (h : Handle) (doc : Document) : bool :=
  existsb (same_listener "click" (handle_click_of h) true) (listeners doc).

(** Every entry was put there by [click_outside], with a function identity
    that has been handed out. *)
Definition well_formed (doc : Document) : Prop :=
  Forall (fun l => type l = "click"%string /\ useCapture l = true /\ listener l < fresh doc)
         (listeners doc).

(** No entry of the listener list carries the function of handle [h]. *)
Definition released (h : Handle) (doc : Document) : Prop :=
  Forall (fun l => listener l <> handle_click_of h) (listeners doc).

End ClickOutside.

(** ** Sample events

    The events at which claims are refuted or theorems are instantiated. *)

Module Samples.
Local Open Scope float_scope.
Definition wide_image_event : MouseEvent float := pointer_event 50 50 400 100 0 0 200 100.
Definition square_event : MouseEvent float := pointer_event 47 47 3 3 0 0 94 94.
Definition hidden_image_event : MouseEvent float := pointer_event 0 0 400 100 0 0 0 0.
Local Open Scope Q_scope.
End Samples.


(** ** Registrations of [click_outside] *)

Module Registrations.
Import ClickOutside.

(** The entry that [click_outside n c] puts on the listener list, when the
    function it creates is the one of handle [h]. *)
Definition registration (h : Handle) (n : option Node) (c : Callback) : Listener :=
  {| type := "click"; listener := handle_click_of h; node := n; cb := c;
     useCapture := true |}.

(** No two entries of the listener list carry the same function. *)
Definition distinct_functions (doc : Document) : Prop :=
  NoDup (map listener (listeners doc)).

End Registrations.

(** ** The layout that the mapper inverts

    These definitions are not code of [types.ts]: they describe how a
    browser lays out an image that is scaled uniformly to fit its box and
    centred in it ([object-fit: contain]), and how scrolling and zooming
    the page change an event.  The mapper is stated against them. *)

Module Contain.
Local Open Scope Q_scope.







End Contain.

(** ** The mirrored event *)

(** The event mirrored in the diagonal: the two axes change places. *)
Definition transposed {num : Type} (evt : MouseEvent num) : MouseEvent num :=
  let image := currentTarget evt in
  let rect := getBoundingClientRect image in
  pointer_event (clientY evt) (clientX evt)
    (naturalHeight image) (naturalWidth image)
    (DOMRect.top rect) (DOMRect.left rect)
    (DOMRect.height rect) (DOMRect.width rect).

Definition swap_axes {num : Type} (p : num * num) : num * num := (snd p, fst p).

(** ** Sample sessions and events *)

Module Session.
Import ClickOutside.

Definition menu : Node := Element 3 [Element 4 []].
Definition dialog : Node := Element 5 [].
Definition page : Node := Element 7 [].

Definition close_menu : Callback := {| cb_name := 0; calls_preventDefault := false |}.

Definition prevented_click_on (n : Node) : Click :=
  {| target := Some n; defaultPrevented := true |}.

(** Two detectors with callbacks that leave the event alone. *)
Definition two_detectors : list Action :=
  [Install (Some menu) close_menu; Install (Some dialog) close_menu].


(** A 1x1 image in a box whose width is the smallest positive double: the
    horizontal scale factor overflows to [Infinity]. *)
Definition overflowing_event : MouseEvent float :=
  pointer_event 1%float 1%float 1 1 0%float 0%float 0x1p-1074%float 1%float.

End Session.


(** * Properties *)

(** ** The outside-click detector *)

Section ClickOutsideFacts.
Import ClickOutside.

Lemma Node_forall_ind (P : Node -> Prop) :
  (forall id cs, Forall P cs -> P (Element id cs)) -> forall n, P n.
Proof.
  intros step. fix IH 1. intros [id cs]. apply step.
  induction cs as [|c cs IHcs]; constructor; [apply IH | exact IHcs].
Qed.

Lemma in_inclusive_descendants (n : Node) (i : nat) :
  In i (inclusive_descendants n) <->
  i = node_id n \/ exists d, descendant n d /\ node_id d = i.
Proof.
  revert i. induction n as [id cs IH] using Node_forall_ind. intros i; simpl.
  rewrite in_flat_map. split.
  - intros [->|[c [Hc Hi]]]; [now left|right].
    rewrite Forall_forall in IH. apply (IH c Hc) in Hi.
    destruct Hi as [->|[d [Hd <-]]].
    + exists c. split; [|reflexivity]. now apply descendant_child.
    + exists d. split; [|reflexivity]. now apply descendant_below with c.
  - intros [->|[d [Hd <-]]]; [now left|right].
    rewrite Forall_forall in IH.
    inversion Hd as [? c Hc|? c ? Hc Hcd]; subst; simpl in Hc.
    + exists d. split; [exact Hc|]. apply (IH d Hc). now left.
    + exists c. split; [exact Hc|]. apply (IH c Hc). right. now exists d.
Qed.

Lemma contains_spec (n o : Node) :
  contains n (Some o) = true <->
  node_id o = node_id n \/ exists d, descendant n d /\ node_id d = node_id o.
Proof.
  unfold contains. rewrite existsb_exists, <- in_inclusive_descendants. split.
  - intros [i [Hi E]]. apply Nat.eqb_eq in E. now subst.
  - intros Hi. exists (node_id o). split; [exact Hi|apply Nat.eqb_refl].
Qed.

Lemma contains_false_outside (n : Node) (t : option Node) :
  contains n t = false <-> outside n t.
Proof.
  unfold outside. destruct t as [o|].
  - rewrite <- Bool.not_true_iff_false, contains_spec. split.
    + intros H o' [= <-]. split.
      * intros E. apply H. now left.
      * intros d Hd E. apply H. right. now exists d.
    + intros H [E|[d [Hd E]]]; destruct (H o eq_refl) as [H1 H2].
      * now apply H1.
      * now apply (H2 d Hd).
  - simpl. split; [intros _ o [=]|reflexivity].
Qed.

(** C3.  A click that reaches the handler of a registration whose node is
    not null makes it call the callback with that event if and only if the
    target is neither the node nor one of its descendants and the default
    action has not been prevented; the handler makes no other call. *)
Theorem handle_click_fires_iff_outside (n : Node) (c : Callback) (event : Click) :
  (In (c, event) (handle_click (Some n) c event) <->
     outside n (target event) /\ defaultPrevented event = false)
  /\ (handle_click (Some n) c event = [(c, event)]
      \/ handle_click (Some n) c event = []).
Proof.
  unfold handle_click.
  destruct (contains n (target event)) eqn:Hc; destruct (defaultPrevented event) eqn:Hp;
    simpl; (split; [|auto]); rewrite <- contains_false_outside, Hc;
    split; try tauto; try (intros [? ?]; discriminate).
Qed.

Lemma handle_click_null (c : Callback) (event : Click) :
  handle_click None c event = [].
Proof. reflexivity. Qed.

Lemma well_formed_empty : well_formed empty_document.
Proof. constructor. Qed.

Lemma fresh_step (doc : Document) (a : Action) : fresh doc <= fresh (step doc a).
Proof.
  destruct a as [n c|h|e]; simpl; auto.
  unfold addEventListener; simpl.
  destruct (existsb _ _); simpl; auto.
Qed.

Lemma well_formed_step (doc : Document) (a : Action) :
  well_formed doc -> well_formed (step doc a).
Proof.
  unfold well_formed. intros W. destruct a as [n c|h|e]; simpl.
  - assert (W' : Forall (fun l => type l = "click"%string /\ useCapture l = true
                                  /\ listener l < S (fresh doc)) (listeners doc)).
    { eapply Forall_impl; [|exact W]. simpl. intros l (?&?&?). auto. }
    unfold addEventListener; simpl. destruct (existsb _ _); simpl; [exact W'|].
    apply Forall_app. split; [exact W'|]. constructor; [|constructor]. simpl. auto.
  - rewrite Forall_forall in *. intros l Hl. apply filter_In in Hl. now apply W.
  - exact W.
Qed.

Lemma well_formed_run (acts : list Action) (doc : Document) :
  well_formed doc -> well_formed (run doc acts).
Proof.
  revert doc. induction acts as [|a acts IH]; intros doc W; simpl; [exact W|].
  apply IH, well_formed_step, W.
Qed.

Lemma destroy_released (h : Handle) (doc : Document) :
  well_formed doc -> released h (destroy h doc).
Proof.
  unfold well_formed, released, destroy, removeEventListener; simpl.
  rewrite !Forall_forall. intros W l Hl. apply filter_In in Hl as [Hl Hn].
  destruct (W l Hl) as (Ht & Hc & _). intros E.
  unfold same_listener in Hn. rewrite Ht, Hc, E, Nat.eqb_refl in Hn. discriminate.
Qed.

Lemma released_not_installed (h : Handle) (doc : Document) :
  released h doc -> installed h doc = false.
Proof.
  unfold released, installed. rewrite Forall_forall. intros R.
  apply Bool.not_true_iff_false. rewrite existsb_exists. intros [l [Hl S]].
  unfold same_listener in S. apply andb_prop in S as [S _]. apply andb_prop in S as [_ S].
  apply Nat.eqb_eq in S. now apply (R l Hl).
Qed.

Lemma released_destroy_noop (h : Handle) (doc : Document) :
  released h doc -> destroy h doc = doc.
Proof.
  unfold released, destroy, removeEventListener. rewrite Forall_forall. intros R.
  destruct doc as [ls f cs]; simpl in *. f_equal.
  induction ls as [|l ls IH]; simpl; [reflexivity|].
  assert (E : same_listener "click" (handle_click_of h) true l = false).
  { unfold same_listener. destruct (Nat.eqb_spec (listener l) (handle_click_of h)) as [E|_].
    - exfalso. apply (R l); [now left|exact E].
    - now rewrite Bool.andb_false_r. }
  rewrite E; simpl. f_equal. apply IH. intros l' Hl'. apply R. now right.
Qed.

Lemma released_step (h : Handle) (doc : Document) (a : Action) :
  released h doc -> handle_click_of h < fresh doc -> released h (step doc a).
Proof.
  unfold released. intros R F. destruct a as [n c|h'|e]; simpl.
  - unfold addEventListener; simpl. destruct (existsb _ _); simpl; [exact R|].
    apply Forall_app. split; [exact R|]. constructor; [|constructor]. simpl. lia.
  - rewrite Forall_forall in *. intros l Hl. apply filter_In in Hl. now apply R.
  - exact R.
Qed.

Lemma released_run (h : Handle) (acts : list Action) (doc : Document) :
  released h doc -> handle_click_of h < fresh doc -> released h (run doc acts).
Proof.
  revert doc. induction acts as [|a acts IH]; intros doc R F; simpl; [exact R|].
  apply IH; [now apply released_step|].
  pose proof (fresh_step doc a). lia.
Qed.

Lemma run_listeners_callers (ls : list Listener) (event : Click) (k : Call) :
  In k (run_listeners ls event) -> exists l, In l ls /\ listener l = caller k.
Proof.
  revert event. induction ls as [|l ls IH]; intros event; simpl; [tauto|].
  rewrite in_app_iff, in_map_iff. intros [[ce [<- _]]|Hk].
  - exists l. auto.
  - destruct (IH _ Hk) as [l' [Hl' E]]. exists l'. auto.
Qed.

Lemma filter_none {A : Type} (f : A -> bool) (l : list A) :
  (forall x, In x l -> f x = false) -> filter f l = [].
Proof.
  induction l as [|a l IH]; intros F; simpl; [reflexivity|].
  rewrite (F a) by now left. apply IH. intros x Hx. apply F. now right.
Qed.

Lemma calls_through_step (h : Handle) (doc : Document) (a : Action) :
  released h doc -> calls_through h (step doc a) = calls_through h doc.
Proof.
  unfold released, calls_through. rewrite Forall_forall. intros R.
  destruct a as [n c|h'|e]; simpl.
  - unfold addEventListener; simpl. now destruct (existsb _ _).
  - reflexivity.
  - rewrite filter_app.
    replace (filter _ (run_listeners (click_listeners doc) e)) with (@nil Call);
      [now rewrite app_nil_r|].
    symmetry. apply filter_none. intros k Hk.
    apply run_listeners_callers in Hk as [l [Hl E]].
    apply Nat.eqb_neq. rewrite <- E. apply R.
    unfold click_listeners in Hl. apply in_app_or in Hl as [Hl|Hl];
      now apply filter_In in Hl.
Qed.

Lemma calls_through_run (h : Handle) (acts : list Action) (doc : Document) :
  released h doc -> handle_click_of h < fresh doc ->
  calls_through h (run doc acts) = calls_through h doc.
Proof.
  revert doc. induction acts as [|a acts IH]; intros doc R F; simpl; [reflexivity|].
  rewrite IH.
  - now apply calls_through_step.
  - now apply released_step.
  - pose proof (fresh_step doc a). lia.
Qed.

Lemma fresh_run (acts : list Action) (doc : Document) :
  fresh doc <= fresh (run doc acts).
Proof.
  revert doc. induction acts as [|a acts IH]; intros doc; simpl; [lia|].
  pose proof (fresh_step doc a). pose proof (IH (step doc a)). lia.
Qed.

Lemma click_outside_installs (n : option Node) (c : Callback) (doc : Document) :
  installed (snd (click_outside n c doc)) (fst (click_outside n c doc)) = true.
Proof.
  unfold click_outside, installed, addEventListener; simpl.
  destruct (existsb (same_listener "click" (fresh doc) true) (listeners doc)) eqn:E;
    simpl; [exact E|].
  rewrite existsb_app; simpl. unfold same_listener at 2; simpl.
  now rewrite Nat.eqb_refl, Bool.orb_true_r.
Qed.

(** With one registration on the document, a click makes exactly the calls
    of its handler. *)
Lemma dispatch_to_one_registration (n : option Node) (c : Callback) (event : Click) :
  let registration := click_outside n c empty_document in
  calls (dispatch_click event (fst registration))
  = map (fun ce => {| caller := handle_click_of (snd registration);
                      callee := fst ce; argument := snd ce |})
        (handle_click n c event).
Proof. simpl. now rewrite app_nil_r. Qed.

(** C8.  A registration puts its listener on the document; after any
    history, its [destroy] takes the listener off, a second [destroy]
    changes nothing, and whatever happens afterwards (clicks on any target,
    other registrations, further teardowns) adds no call through that
    listener. *)
Theorem destroy_is_final (before : list Action) (n : option Node) (c : Callback)
  (during : list Action) :
  let registration := click_outside n c (run empty_document before) in
  let h := snd registration in
  let doc := destroy h (run (fst registration) during) in
  installed h (fst registration) = true
  /\ installed h doc = false
  /\ destroy h doc = doc
  /\ forall after : list Action,
       installed h (run doc after) = false
       /\ calls_through h (run doc after) = calls_through h doc.
Proof.
  intros registration h doc.
  assert (W : well_formed (run (fst registration) during)).
  { apply well_formed_run. apply (well_formed_step _ (Install n c)).
    apply well_formed_run, well_formed_empty. }
  assert (R : released h doc) by (apply destroy_released, W).
  assert (F : handle_click_of h < fresh doc).
  { assert (E : fresh (fst registration) = S (handle_click_of h)).
    { unfold registration, h, click_outside, addEventListener; simpl.
      now destruct (existsb _ _). }
    assert (D : fresh doc = fresh (run (fst registration) during)) by reflexivity.
    pose proof (fresh_run during (fst registration)) as L.
    rewrite D. lia. }
  split; [apply click_outside_installs|].
  split; [now apply released_not_installed|].
  split; [now apply released_destroy_noop|].
  intros after. split; [|now apply calls_through_run].
  now apply released_not_installed, released_run.
Qed.

(** A session: of four clicks while the detector is installed on node 3
    (with child 4), only the unprevented click on the outside node 7 calls
    back; after the teardown the same click does not. *)
Example detector_session :
  let menu := Element 3 [Element 4 []] in
  let c := {| cb_name := 0; calls_preventDefault := false |} in
  let on e := {| target := Some e; defaultPrevented := false |} in
  let registration := click_outside (Some menu) c empty_document in
  let h := snd registration in
  let opened :=
    run (fst registration)
        [UserClick (on (Element 7 []));
         UserClick (on (Element 4 []));
         UserClick {| target := Some (Element 7 []); defaultPrevented := true |};
         UserClick (on (Element 3 [Element 4 []]))] in
  let closed := run opened [Teardown h; UserClick (on (Element 7 []))] in
  installed h opened = true
  /\ calls_through h opened
     = [{| caller := 0; callee := c; argument := on (Element 7 []) |}]
  /\ calls_through h closed = calls_through h opened.
Proof. repeat split. Qed.

(** C4 as stated fails: with a null node, a click whose default action was
    not prevented does not reach the callback. *)
Lemma null_node_click_is_dropped :
  let c := {| cb_name := 0; calls_preventDefault := false |} in
  let event := {| target := Some (Element 7 []); defaultPrevented := false |} in
  defaultPrevented event = false /\ ~ In (c, event) (handle_click None c event).
Proof. simpl. split; [reflexivity|tauto]. Qed.

(** C4, amended.  For a click whose default action has not been prevented:
    a null node drops it (the callback is never called), while a node that
    is not null and does not contain the target, as a detached node does
    for every target in the document, passes it to the callback. *)
Theorem null_node_drops_detached_node_fires (nd : option Node) (c : Callback)
  (event : Click) :
  defaultPrevented event = false ->
  (nd = None -> handle_click nd c event = [])
  /\ (forall n, nd = Some n -> outside n (target event) ->
        handle_click nd c event = [(c, event)]).
Proof.
  intros P. split.
  - now intros ->.
  - intros n -> O. unfold handle_click.
    apply contains_false_outside in O. now rewrite O, P.
Qed.

Lemma null_node_drops_detached_node_fires_witness :
  let c := {| cb_name := 0; calls_preventDefault := false |} in
  let event := {| target := Some (Element 7 []); defaultPrevented := false |} in
  (handle_click None c event = [])
  /\ handle_click (Some (Element 3 [Element 4 []])) c event = [(c, event)].
Proof.
  intros c event. split.
  - apply (null_node_drops_detached_node_fires None c event); reflexivity.
  - apply (proj2 (null_node_drops_detached_node_fires
                    (Some (Element 3 [Element 4 []])) c event eq_refl)
                 (Element 3 [Element 4 []]) eq_refl).
    apply contains_false_outside. reflexivity.
Defined.

End ClickOutsideFacts.

(** ** The mapper, for any arithmetic *)

Section MapperFacts.
Context {num : Type} `{Number num}.
Local Open Scope js_scope.

Lemma clicked_point_rounds (evt : MouseEvent num) :
  clicked_point evt =
  (Math_round (fst (unrounded_point evt)), Math_round (snd (unrounded_point evt))).
Proof.
  unfold clicked_point, unrounded_point. now destruct (_ >? _).
Qed.




(** C1.  Whatever the arithmetic, the coordinates that reach the bounds
    check are: when [scale_x > scale_y], [x = round ((clientX - left) * scale_x)]
    and [y = round ((clientY - top - y_offset) * scale_x)] with
    [y_offset = (displayed_height - natural_height / scale_x) / 2]; otherwise
    [x = round ((clientX - left - x_offset) * scale_y)] with
    [x_offset = (displayed_width - natural_width / scale_y) / 2] and
    [y = round ((clientY - top) * scale_y)].  The result of the mapper is the
    bounds check applied to these two values. *)
Theorem mapper_formulas (evt : MouseEvent num) :
  let image := currentTarget evt in
  let rect := getBoundingClientRect image in
  let natural_width := of_uint (naturalWidth image) in
  let natural_height := of_uint (naturalHeight image) in
  let displayed_width := DOMRect.width rect in
  let displayed_height := DOMRect.height rect in
  let scale_x := natural_width / displayed_width in
  let scale_y := natural_height / displayed_height in
  let y_offset := (displayed_height - natural_height / scale_x) / of_uint 2 in
  let x_offset := (displayed_width - natural_width / scale_y) / of_uint 2 in
  clicked_point evt =
    (if scale_x >? scale_y
     then (Math_round ((clientX evt - DOMRect.left rect) * scale_x),
           Math_round ((clientY evt - DOMRect.top rect - y_offset) * scale_x))
     else (Math_round ((clientX evt - DOMRect.left rect - x_offset) * scale_y),
           Math_round ((clientY evt - DOMRect.top rect) * scale_y)))
  /\ get_coordinates_of_clicked_image evt =
     (if out_of_bounds image (clicked_point evt) then None else Some (clicked_point evt)).
Proof.
  split; [|reflexivity].
  unfold clicked_point, width_constrained, height_constrained, xScale_of, yScale_of.
  reflexivity.
Qed.
End MapperFacts.

(** ** Doubles: order, integers and [Math.round] *)

Section Float64Facts.
Import Float64.
Local Open Scope Z_scope.

Lemma digits2_size (m : positive) : digits2_pos m = Pos.size m.
Proof. induction m; simpl; congruence. Qed.

Lemma digits2_log2 (m : positive) : Zpos (digits2_pos m) = Z.log2 (Zpos m) + 1.
Proof.
  rewrite digits2_size. destruct m; simpl; try reflexivity; lia.
Qed.

Lemma digits2_bounds (m : positive) :
  2 ^ (Zpos (digits2_pos m) - 1) <= Zpos m < 2 ^ Zpos (digits2_pos m).
Proof.
  rewrite digits2_log2. replace (Z.log2 (Zpos m) + 1 - 1) with (Z.log2 (Zpos m)) by lia.
  replace (Z.log2 (Z.pos m) + 1) with (Z.succ (Z.log2 (Z.pos m))) by lia.
  apply Z.log2_spec. lia.
Qed.

(** A valid finite double: exponent range, at most 53 mantissa bits, and a
    full mantissa unless the number is subnormal. *)
Lemma valid_finite (s : bool) (m : positive) (e : Z) :
  valid_binary (S754_finite s m e) = true ->
  -1074 <= e <= 971 /\ Zpos m < 2 ^ 53 /\ (-1074 < e -> 2 ^ 52 <= Zpos m).
Proof.
  unfold SpecFloat.valid_binary, bounded, canonical_mantissa, fexp, SpecFloat.emin.
  change prec with 53. change emax with 1024.
  intros V. apply andb_prop in V as [C B].
  apply Z.eqb_eq in C. apply Z.leb_le in B.
  pose proof (digits2_bounds m) as [L U].
  set (d := Zpos (digits2_pos m)) in *.
  assert (d <= 53 /\ -1074 <= e /\ (-1074 < e -> d = 53)) as (D & E & N) by lia.
  repeat split; try lia.
  - apply Z.lt_le_trans with (1 := U). apply Z.pow_le_mono_r; lia.
  - intros H. rewrite (N H) in L. exact L.
Qed.

Lemma pow2_pos (k : Z) : 0 <= k -> 0 < 2 ^ k.
Proof. intros. apply Z.pow_pos_nonneg; lia. Qed.

Lemma mantissa_order (m1 m2 : positive) (e1 e2 : Z) :
  valid_binary (S754_finite false m1 e1) = true ->
  valid_binary (S754_finite false m2 e2) = true ->
  e1 < e2 ->
  Zpos m1 * 2 ^ (e1 + 1074) < Zpos m2 * 2 ^ (e2 + 1074).
Proof.
  intros V1 V2 L.
  apply valid_finite in V1 as (E1 & U1 & _).
  apply valid_finite in V2 as (E2 & _ & N2).
  assert (2 ^ 52 <= Zpos m2) as L2 by (apply N2; lia).
  assert (0 < 2 ^ (e1 + 1074)) as P1 by (apply pow2_pos; lia).
  assert (2 * 2 ^ (e1 + 1074) <= 2 ^ (e2 + 1074)) as P2.
  { replace (2 * 2 ^ (e1 + 1074)) with (2 ^ (e1 + 1075)).
    - apply Z.pow_le_mono_r; lia.
    - replace (e1 + 1075) with (Z.succ (e1 + 1074)) by lia.
      rewrite Z.pow_succ_r; lia. }
  change (2 ^ 53) with 9007199254740992 in U1.
  change (2 ^ 52) with 4503599627370496 in L2.
  nia.
Qed.

Lemma units_sign (s : bool) (m : positive) (e : Z) :
  -1074 <= e ->
  if s then units (S754_finite s m e) < 0 else 0 < units (S754_finite s m e).
Proof.
  intros E. pose proof (pow2_pos (e + 1074) ltac:(lia)).
  unfold units, cond_Zopp. destruct s; nia.
Qed.

Lemma compare_scale (a b p : Z) : 0 < p -> (a * p ?= b * p) = (a ?= b).
Proof.
  intros P. destruct (Z.compare_spec a b) as [->|L|L].
  - apply Z.compare_refl.
  - apply Z.compare_lt_iff. nia.
  - apply Z.compare_gt_iff. nia.
Qed.

(** The IEEE comparison of two finite doubles is the comparison of their
    values. *)
Lemma SFcompare_units (x y : spec_float) :
  valid_binary x = true -> valid_binary y = true ->
  SFfinite x = true -> SFfinite y = true ->
  SFcompare x y = Some (units x ?= units y).
Proof.
  intros Vx Vy Fx Fy.
  destruct x as [sx| |  |sx mx ex]; try discriminate;
  destruct y as [sy| |  |sy my ey]; try discriminate.
  - reflexivity.
  - pose proof (valid_finite _ _ _ Vy) as (E & _).
    pose proof (units_sign sy my ey ltac:(lia)) as S.
    unfold SFcompare. simpl (units (S754_zero _)).
    destruct sy; f_equal; symmetry; [apply Z.compare_gt_iff|apply Z.compare_lt_iff]; exact S.
  - pose proof (valid_finite _ _ _ Vx) as (E & _).
    pose proof (units_sign sx mx ex ltac:(lia)) as S.
    unfold SFcompare. simpl (units (S754_zero _)).
    destruct sx; f_equal; symmetry; [apply Z.compare_lt_iff|apply Z.compare_gt_iff]; exact S.
  - pose proof (valid_finite _ _ _ Vx) as (Ex & _).
    pose proof (valid_finite _ _ _ Vy) as (Ey & _).
    pose proof (units_sign sx mx ex ltac:(lia)) as Sx.
    pose proof (units_sign sy my ey ltac:(lia)) as Sy.
    assert (Vx' : valid_binary (S754_finite false mx ex) = true) by exact Vx.
    assert (Vy' : valid_binary (S754_finite false my ey) = true) by exact Vy.
    pose proof (pow2_pos (ex + 1074) ltac:(lia)) as Px.
    unfold SFcompare.
    destruct sx, sy; f_equal; symmetry.
    + (* both negative *)
      unfold units, cond_Zopp.
      change (Pos.compare_cont Eq mx my) with (Z.compare (Zpos mx) (Zpos my)).
      destruct (Z.compare_spec ex ey) as [->|L|L].
      * rewrite (compare_scale _ _ _ Px), Z.compare_opp. apply Z.compare_antisym.
      * apply Z.compare_gt_iff. pose proof (mantissa_order _ _ _ _ Vx' Vy' L). lia.
      * apply Z.compare_lt_iff. pose proof (mantissa_order _ _ _ _ Vy' Vx' L). lia.
    + apply Z.compare_lt_iff. lia.
    + apply Z.compare_gt_iff. lia.
    + unfold units, cond_Zopp.
      change (Pos.compare_cont Eq mx my) with (Z.compare (Zpos mx) (Zpos my)).
      destruct (Z.compare_spec ex ey) as [->|L|L].
      * now rewrite (compare_scale _ _ _ Px).
      * apply Z.compare_lt_iff. exact (mantissa_order _ _ _ _ Vx' Vy' L).
      * apply Z.compare_gt_iff. exact (mantissa_order _ _ _ _ Vy' Vx' L).
Qed.

(** [SF_of_Z] on integers below [2^53]: a valid double of that value. *)
Lemma SF_of_Z_nonzero (n : Z) :
  n <> 0 -> Z.abs n < 2 ^ 53 ->
  let d := Z.log2 (Z.abs n) + 1 in
  1 <= d <= 53 /\
  SF_of_Z n = S754_finite (n <? 0) (Z.to_pos (Z.abs n * 2 ^ (53 - d))) (d - 53).
Proof.
  intros N B d.
  assert (1 <= d <= 53) as D.
  { unfold d. pose proof (Z.log2_nonneg (Z.abs n)).
    assert (Z.log2 (Z.abs n) < 53) by (apply Z.log2_lt_pow2; lia). lia. }
  split; [exact D|].
  unfold SF_of_Z. fold d. destruct (Z.leb_spec d 53) as [_|]; [|lia].
  destruct n; [contradiction|reflexivity|reflexivity].
Qed.

Lemma SF_of_Z_valid (n : Z) : Z.abs n < 2 ^ 53 -> valid_binary (SF_of_Z n) = true.
Proof.
  intros B. destruct (Z.eq_dec n 0) as [->|N]; [reflexivity|].
  destruct (SF_of_Z_nonzero n N B) as [D ->].
  set (d := Z.log2 (Z.abs n) + 1) in *.
  assert (0 < 2 ^ (53 - d)) as P by (apply pow2_pos; lia).
  unfold SpecFloat.valid_binary, bounded, canonical_mantissa, fexp, SpecFloat.emin.
  change prec with 53. change emax with 1024.
  assert (0 < Z.abs n * 2 ^ (53 - d)) as M by (apply Z.mul_pos_pos; lia).
  rewrite digits2_log2, Z2Pos.id by exact M.
  rewrite Z.log2_mul_pow2 by lia. fold d.
  apply andb_true_intro. split; [apply Z.eqb_eq|apply Z.leb_le]; lia.
Qed.

Lemma SF_of_Z_finite (n : Z) : Z.abs n < 2 ^ 53 -> SFfinite (SF_of_Z n) = true.
Proof.
  intros B. destruct (Z.eq_dec n 0) as [->|N]; [reflexivity|].
  now destruct (SF_of_Z_nonzero n N B) as [_ ->].
Qed.

Lemma SF_of_Z_units (n : Z) : Z.abs n < 2 ^ 53 -> units (SF_of_Z n) = n * 2 ^ 1074.
Proof.
  intros B. destruct (Z.eq_dec n 0) as [->|N]; [reflexivity|].
  destruct (SF_of_Z_nonzero n N B) as [D ->].
  set (d := Z.log2 (Z.abs n) + 1) in *.
  assert (0 < 2 ^ (53 - d)) as P by (apply pow2_pos; lia).
  assert (0 < Z.abs n * 2 ^ (53 - d)) as M by (apply Z.mul_pos_pos; lia).
  unfold units. rewrite Z2Pos.id by exact M.
  replace 1074 with ((53 - d) + (d - 53 + 1074)) at 2 by lia.
  rewrite (Z.pow_add_r 2 (53 - d) (d - 53 + 1074)) by lia.
  unfold cond_Zopp. destruct (Z.ltb_spec n 0); nia.
Qed.

Lemma pow2_1075 : 2 ^ 1075 = 2 * 2 ^ 1074.
Proof. change 1075 with (Z.succ 1074). apply Z.pow_succ_r. lia. Qed.

(** [nearest u] is the floor of [u / 2^1074 + 1/2]. *)
Lemma nearest_spec (u : Z) :
  2 * 2 ^ 1074 * nearest u <= 2 * u + 2 ^ 1074 < 2 * 2 ^ 1074 * nearest u + 2 * 2 ^ 1074.
Proof.
  unfold nearest. rewrite pow2_1075.
  pose proof (pow2_pos 1074 ltac:(lia)) as P. set (p := 2 ^ 1074) in *.
  pose proof (Z.mul_div_le (2 * u + p) (2 * p) ltac:(lia)).
  pose proof (Z.mul_succ_div_gt (2 * u + p) (2 * p) ltac:(lia)). lia.
Qed.

Lemma nearest_integer (k : Z) : nearest (k * 2 ^ 1074) = k.
Proof.
  pose proof (nearest_spec (k * 2 ^ 1074)) as S.
  pose proof (pow2_pos 1074 ltac:(lia)) as P. set (p := 2 ^ 1074) in *. nia.
Qed.

Lemma nearest_small (s : bool) (m : positive) (e : Z) :
  valid_binary (S754_finite s m e) = true -> e < 0 ->
  Z.abs (nearest (units (S754_finite s m e))) < 2 ^ 53.
Proof.
  intros V E. apply valid_finite in V as (Eb & U & _).
  pose proof (nearest_spec (units (S754_finite s m e))) as S.
  unfold units in *.
  pose proof (pow2_pos 1074 ltac:(lia)) as P.
  assert (2 * 2 ^ (e + 1074) <= 2 ^ 1074) as H.
  { replace (2 * 2 ^ (e + 1074)) with (2 ^ (Z.succ (e + 1074)))
      by (rewrite Z.pow_succ_r; lia).
    apply Z.pow_le_mono_r; lia. }
  pose proof (pow2_pos (e + 1074) ltac:(lia)) as Q.
  set (p := 2 ^ 1074) in *. set (q := 2 ^ (e + 1074)) in *.
  set (n := nearest _) in *.
  change (2 ^ 53) with 9007199254740992 in *.
  unfold cond_Zopp in *. destruct s; nia.
Qed.

(** [Math.round] of a finite double is a finite double, of value
    [floor (x + 1/2)]. *)
Lemma SFround_spec (x : spec_float) :
  valid_binary x = true -> SFfinite x = true ->
  valid_binary (SFround x) = true /\ SFfinite (SFround x) = true
  /\ units (SFround x) = nearest (units x) * 2 ^ 1074.
Proof.
  intros V F. destruct x as [s| | |s m e]; try discriminate.
  - split; [reflexivity|split; [reflexivity|]].
    change (units (SFround (S754_zero s))) with 0.
    change (units (S754_zero s)) with (0 * 2 ^ 1074).
    now rewrite nearest_integer.
  - unfold SFround. destruct (Z.leb_spec 0 e) as [E|E].
    + repeat split; [exact V|].
      replace (units (S754_finite s m e)) with (cond_Zopp s (Zpos m) * 2 ^ e * 2 ^ 1074).
      * now rewrite nearest_integer.
      * unfold units. rewrite Z.pow_add_r by lia. ring.
    + pose proof (nearest_small s m e V E) as B.
      fold (nearest (units (S754_finite s m e))).
      set (n := nearest _) in *.
      destruct n as [|p|p] eqn:En.
      * repeat split.
      * rewrite <- En in *. repeat split.
        -- now apply SF_of_Z_valid.
        -- now apply SF_of_Z_finite.
        -- now apply SF_of_Z_units.
      * rewrite <- En in *. repeat split.
        -- now apply SF_of_Z_valid.
        -- now apply SF_of_Z_finite.
        -- now apply SF_of_Z_units.
Qed.

Lemma SFround_valid (x : spec_float) :
  valid_binary x = true -> valid_binary (SFround x) = true.
Proof.
  intros V. destruct (SFfinite x) eqn:F.
  - now apply SFround_spec.
  - destruct x; try discriminate; exact V.
Qed.

Lemma Prim2SF_round (x : float) : Prim2SF (round x) = SFround (Prim2SF x).
Proof. apply Prim2SF_SF2Prim, SFround_valid, Prim2SF_valid. Qed.

Lemma Prim2SF_of_Z (n : Z) : Z.abs n < 2 ^ 53 -> Prim2SF (of_Z n) = SF_of_Z n.
Proof. intros B. now apply Prim2SF_SF2Prim, SF_of_Z_valid. Qed.

Lemma SFcompare_refl (s : spec_float) : s <> S754_nan -> SFcompare s s = Some Eq.
Proof.
  destruct s as [b|b| |b m e]; try congruence; intros _; unfold SFcompare.
  - reflexivity.
  - now destruct b.
  - rewrite Z.compare_refl, Pos.compare_cont_refl. now destruct b.
Qed.

(** NaN, the only double that differs from itself. *)
Lemma is_nan_spec (x : float) : is_nan x = true <-> Prim2SF x = S754_nan.
Proof.
  unfold is_nan. rewrite eqb_spec. unfold SFeqb. split.
  - intros H. destruct (Prim2SF x) eqn:E; try reflexivity;
      rewrite SFcompare_refl in H by discriminate; discriminate.
  - now intros ->.
Qed.

Lemma ltb_units (x y : float) :
  isFinite x = true -> isFinite y = true ->
  PrimFloat.ltb x y = (units (Prim2SF x) <? units (Prim2SF y)).
Proof.
  intros Fx Fy. rewrite ltb_spec. unfold SFltb, Z.ltb.
  now rewrite SFcompare_units by (apply Prim2SF_valid || assumption).
Qed.

Lemma leb_units (x y : float) :
  isFinite x = true -> isFinite y = true ->
  PrimFloat.leb x y = (units (Prim2SF x) <=? units (Prim2SF y)).
Proof.
  intros Fx Fy. rewrite leb_spec. unfold SFleb, Z.leb.
  rewrite SFcompare_units by (apply Prim2SF_valid || assumption).
  now destruct (_ ?= _).
Qed.

Lemma round_finite (v : float) :
  isFinite v = true ->
  isFinite (round v) = true
  /\ units (Prim2SF (round v)) = nearest (units (Prim2SF v)) * 2 ^ 1074.
Proof.
  intros F. unfold isFinite. rewrite Prim2SF_round.
  destruct (SFround_spec (Prim2SF v) (Prim2SF_valid v) F) as (_ & F' & U).
  split; assumption.
Qed.

(** On finite doubles [Math.round] is the rounding of exact arithmetic. *)
Lemma F2Q_round (v : float) :
  isFinite v = true -> (F2Q (round v) == Exact.round (F2Q v))%Q.
Proof.
  intros F. destruct (round_finite v F) as [_ U].
  unfold F2Q, Exact.round. rewrite U.
  unfold Qeq, Qfloor, Qplus, inject_Z, Qnum, Qden, nearest.
  rewrite pow2_1075. rewrite Pos2Z.inj_mul, Pos2Z.inj_pow.
  change (Z.pos 2) with 2. change (Z.pos 1074) with 1074.
  set (p := 2 ^ 1074). rewrite Z.mul_1_r. f_equal. f_equal; ring.
Qed.

Lemma F2Q_integer (x : float) (k i : Z) :
  units (Prim2SF x) = k * 2 ^ 1074 -> (F2Q x == inject_Z i)%Q <-> k = i.
Proof.
  intros U. unfold F2Q, Qeq, inject_Z, Qnum, Qden. rewrite U, Pos2Z.inj_pow.
  change (Z.pos 2) with 2. change (Z.pos 1074) with 1074.
  pose proof (pow2_pos 1074 ltac:(lia)) as P. set (p := 2 ^ 1074) in *. nia.
Qed.

Lemma of_uint_finite (n : N) :
  (n < 2 ^ 32)%N ->
  isFinite (of_uint n) = true /\ units (Prim2SF (of_uint n)) = Z.of_N n * 2 ^ 1074.
Proof.
  intros B.
  assert (Z.abs (Z.of_N n) < 2 ^ 53) as B'.
  { change (2 ^ 32)%N with 4294967296%N in B. change (2 ^ 53) with 9007199254740992. lia. }
  unfold isFinite; simpl of_uint. rewrite Prim2SF_of_Z by exact B'.
  split; [now apply SF_of_Z_finite|now apply SF_of_Z_units].
Qed.

(** For a rounded coordinate that is not NaN, the two comparisons of the
    bounds check on one axis are both false exactly for the integers of
    [[0, n)]. *)
Lemma round_pixel_index (v : float) (n : N) :
  (n < 2 ^ 32)%N -> is_nan (round v) = false ->
  (lt (round v) (of_uint 0) || le (of_uint n) (round v) = false
   <-> pixel_index (round v) n).
Proof.
  intros B NaN.
  destruct (of_uint_finite 0) as [F0 U0]; [reflexivity|].
  destruct (of_uint_finite n B) as [Fn Un].
  change (@lt float number) with PrimFloat.ltb.
  change (@le float number) with PrimFloat.leb.
  destruct (isFinite v) eqn:Fv.
  - destruct (round_finite v Fv) as [Fx Ux].
    rewrite (ltb_units _ _ Fx F0), (leb_units _ _ Fn Fx), U0, Un, Ux.
    set (k := nearest _).
    pose proof (pow2_pos 1074 ltac:(lia)) as P. set (p := 2 ^ 1074) in *.
    unfold pixel_index. rewrite orb_false_iff, Z.ltb_ge, Z.leb_gt. split.
    + intros [L U]. split; [exact Fx|]. exists k. split; [nia|].
      now apply (F2Q_integer _ k k Ux).
    + intros [_ [i [I E]]]. apply (F2Q_integer _ k i Ux) in E. subst i. nia.
  - assert (exists b, Prim2SF v = S754_infinity b) as [b Ev].
    { unfold isFinite in Fv. destruct (Prim2SF v) as [?|b| |? ? ?] eqn:Ev; try discriminate.
      - now exists b.
      - exfalso. apply Bool.not_true_iff_false in NaN. apply NaN, is_nan_spec.
        now rewrite Prim2SF_round, Ev. }
    assert (Ex : Prim2SF (round v) = S754_infinity b) by now rewrite Prim2SF_round, Ev.
    split.
    + rewrite ltb_spec, leb_spec, Ex. unfold isFinite in F0, Fn.
      destruct (Prim2SF (of_uint 0)); try discriminate;
      destruct (Prim2SF (of_uint n)); try discriminate; now destruct b.
    + intros [Fx _]. unfold isFinite in Fx. now rewrite Ex in Fx.
Qed.




(** [Math.round] at some doubles: halves go up, a zero result keeps the
    sign, [0.49999999999999994] does not reach 1, large and special values
    are returned as they are. *)
Example Math_round_samples :
  (round 2.5 = 3 /\ round (-2.5) = -2 /\ round 0.5 = 1 /\ round (-0.5) = -0
   /\ round (-0.25) = -0 /\ round 0.25 = 0 /\ round 0x1.fffffffffffffp-2 = 0
   /\ round 4503599627370495.5 = 4503599627370496
   /\ round 0x1p+1000 = 0x1p+1000 /\ round (-0) = -0
   /\ round nan = nan /\ round infinity = infinity
   /\ round neg_infinity = neg_infinity)%float.
Proof. repeat split. Qed.

Lemma F2Q_lt_half (v : float) :
  (F2Q v < -(1 # 2))%Q <-> nearest (units (Prim2SF v)) < 0.
Proof.
  unfold F2Q, Qlt. cbn [Qnum Qden Qopp]. rewrite Pos2Z.inj_pow.
  change (Z.pos 2) with 2. change (Z.pos 1074) with 1074.
  pose proof (nearest_spec (units (Prim2SF v))) as S.
  pose proof (pow2_pos 1074 ltac:(lia)) as P. set (p := 2 ^ 1074) in *.
  set (k := nearest _) in *. split; nia.
Qed.

Lemma F2Q_ge_size (v : float) (n : N) :
  (inject_Z (Z.of_N n) - (1 # 2) <= F2Q v)%Q <-> Z.of_N n <= nearest (units (Prim2SF v)).
Proof.
  unfold F2Q, Qle, Qminus, Qplus. cbn [Qnum Qden Qopp inject_Z].
  rewrite Pos2Z.inj_pow, Pos2Z.inj_mul.
  change (Z.pos 2) with 2. change (Z.pos 1074) with 1074. change (Z.pos 1) with 1.
  pose proof (nearest_spec (units (Prim2SF v))) as S.
  pose proof (pow2_pos 1074 ltac:(lia)) as P. set (p := 2 ^ 1074) in *.
  set (k := nearest _) in *. split; nia.
Qed.


End Float64Facts.


(** ** The mapper in exact arithmetic *)

Section ExactFacts.
Local Open Scope Q_scope.














Lemma exact_round_half_integer (n : Z) :
  Math_round (inject_Z n + (1 # 2)) = inject_Z (n + 1).
Proof.
  cbn [Math_round Exact.number]. unfold Exact.round. f_equal.
  rewrite <- (Qfloor_Z (n + 1)). apply Qfloor_comp.
  rewrite inject_Z_plus. change (inject_Z 1) with 1. ring.
Qed.


End ExactFacts.

(** * The claims about the mapper on doubles and in exact arithmetic *)

(** ** The bounds check (C2) *)

Section BoundsCheck.
Import Float64 Samples.
Local Open Scope float_scope.


(** The same happens for a click dispatched on an image that is not
    displayed (an empty bounding box), the state the mapper is not meant to
    be called in. *)
Lemma hidden_image_maps_to_nan :
  get_coordinates_of_clicked_image hidden_image_event = Some (nan, nan).
Proof. reflexivity. Qed.


End BoundsCheck.

(** ** The 200x100 box with a 400x100 image (C5) *)

Section Scenario.
Import Float64 Samples.
Local Open Scope float_scope.

(** C5 as stated fails: in this geometry the click at offset (50, 50) is
    not mapped to (50, 50). *)
Lemma scenario_is_not_50_50 :
  get_coordinates_of_clicked_image wide_image_event <> Some (50, 50).
Proof.
  change (get_coordinates_of_clicked_image wide_image_event) with (Some (100, 50)).
  discriminate.
Qed.

(** C5, amended.  In a 200x100 box showing a 400x100 image, [scale_x = 2]
    exceeds [scale_y = 1], the width-constrained branch runs with a vertical
    offset of 25, and a click at offset (50, 50) from the origin of the box
    maps to the native pixel (100, 50). *)
Theorem scenario_200x100_box_400x100_image (evt : MouseEvent float) :
  let image := currentTarget evt in
  let rect := getBoundingClientRect image in
  naturalWidth image = 400%N -> naturalHeight image = 100%N ->
  DOMRect.width rect = 200 -> DOMRect.height rect = 100 ->
  clientX evt - DOMRect.left rect = 50 ->
  clientY evt - DOMRect.top rect = 50 ->
  get_coordinates_of_clicked_image evt = Some (100, 50).
Proof.
  destruct evt as [cx cy [nw nh [l t w h]]]. cbn. intros -> -> -> -> X Y.
  cbv [get_coordinates_of_clicked_image clicked_point width_constrained
       height_constrained xScale_of yScale_of out_of_bounds
       clientX clientY currentTarget naturalWidth naturalHeight getBoundingClientRect
       DOMRect.left DOMRect.top DOMRect.width DOMRect.height
       sub mul div lt le Math_round of_uint number].
  rewrite X, Y. vm_compute. reflexivity.
Qed.

Lemma scenario_200x100_box_400x100_image_witness :
  get_coordinates_of_clicked_image wide_image_event = Some (100, 50)%float.
Proof.
  apply (scenario_200x100_box_400x100_image wide_image_event); reflexivity.
Defined.
End Scenario.

(** ** Clicks in the padding band (C6) *)

Section PaddingBand.
Import Samples.
Local Open Scope Q_scope.



End PaddingBand.

(** ** Which branch runs, and what a tie gives (C7) *)

Section BranchSelection.
Import Float64 Samples.



End BranchSelection.

(** ** The click at the centre (C9) *)

Section CentreClick.
Import Samples.
Local Open Scope Q_scope.



End CentreClick.

(** ** The rounding rule (C10) *)

Section Rounding.
Import Float64 Samples.
Local Open Scope float_scope.

(** C10.  Both coordinates, on either branch, are [Math.round] of the
    coordinate before rounding, and [Math.round] sends a double of value
    [n + 1/2], for an integer [n] of either sign, to [n + 1]: ties go
    toward +infinity ([Math.round (-0.5)] is a zero). *)
Theorem rounding_ties_go_up (evt : MouseEvent float) :
  clicked_point evt =
    (Math_round (fst (unrounded_point evt)), Math_round (snd (unrounded_point evt)))
  /\ (forall (x : float) (n : Z),
        (F2Q x == inject_Z n + (1 # 2))%Q ->
        isFinite (Math_round x) = true /\ (F2Q (Math_round x) == inject_Z (n + 1))%Q)
  /\ (forall n : Z, Math_round (inject_Z n + (1 # 2))%Q = inject_Z (n + 1)).
Proof.
  split; [apply clicked_point_rounds|]. split; [|apply exact_round_half_integer].
  intros x n E. cbn [Math_round number].
  assert (F : isFinite x = true).
  { unfold isFinite. destruct (Prim2SF x) eqn:S; try reflexivity; exfalso;
      unfold F2Q in E; rewrite S in E; unfold Qeq in E; simpl in E; lia. }
  split; [now apply round_finite|].
  rewrite (F2Q_round x F). unfold Exact.round. rewrite E.
  assert (inject_Z n + (1 # 2) + (1 # 2) == inject_Z (n + 1))%Q as ->.
  { rewrite inject_Z_plus. change (inject_Z 1) with 1%Q. ring. }
  now rewrite Qfloor_Z.
Qed.

Lemma rounding_ties_go_up_witness :
  isFinite (Math_round (-0.5)%float) = true
  /\ (F2Q (Math_round (-0.5)%float) == inject_Z (-1 + 1))%Q.
Proof.
  apply (proj1 (proj2 (rounding_ties_go_up wide_image_event)) (-0.5)%float (-1)%Z).
  vm_compute. reflexivity.
Defined.
End Rounding.

(** ** Several registrations on one document *)

Section DetectorFacts.
Import ClickOutside Registrations Session.

Lemma run_listeners_prevented (ls : list Listener) (event : Click) :
  defaultPrevented event = true -> run_listeners ls event = [].
Proof.
  revert event. induction ls as [|l ls IH]; intros event P; simpl; [reflexivity|].
  assert (E : handle_click (node l) (cb l) event = []).
  { unfold handle_click. destruct (node l); [|reflexivity].
    now rewrite P, Bool.andb_false_r. }
  rewrite E. simpl. apply IH. exact P.
Qed.

(** X1.  A click whose default action has already been prevented when it
    reaches the document calls no callback, whatever detectors are
    installed: the document's call log is unchanged. *)
Theorem prevented_click_calls_nobody (event : Click) (doc : Document) :
  defaultPrevented event = true -> dispatch_click event doc = doc.
Proof.
  intros P. unfold dispatch_click. rewrite run_listeners_prevented by exact P.
  rewrite app_nil_r. now destruct doc.
Qed.

Lemma prevented_click_calls_nobody_witness :
  dispatch_click (prevented_click_on page) (run empty_document two_detectors)
  = run empty_document two_detectors.
Proof.
  apply (prevented_click_calls_nobody (prevented_click_on page)). reflexivity.
Defined.

Lemma after_calls_target (event : Click) (made : list (Callback * Click)) :
  target (after_calls event made) = target event.
Proof. unfold after_calls. now destruct (existsb _ _). Qed.

Lemma run_listeners_sound (ls : list Listener) (event : Click) (k : Call) :
  In k (run_listeners ls event) ->
  exists l n,
    In l ls /\ listener l = caller k /\ cb l = callee k
    /\ node l = Some n /\ contains n (target event) = false
    /\ target (argument k) = target event
    /\ defaultPrevented (argument k) = false.
Proof.
  revert event. induction ls as [|l ls IH]; intros event; simpl; [tauto|].
  rewrite in_app_iff, in_map_iff. intros [[[c e] [<- Hce]]|Hk].
  - unfold handle_click in Hce. destruct (node l) as [n|] eqn:N; [|contradiction].
    destruct (contains n (target event)) eqn:C; [contradiction|].
    destruct (defaultPrevented event) eqn:P; [contradiction|].
    simpl in Hce. destruct Hce as [[= <- <-]|[]].
    exists l, n. simpl. repeat split; auto.
  - destruct (IH _ Hk) as (l' & n & Hl & H1 & H2 & H3 & H4 & H5 & H6).
    rewrite after_calls_target in H4, H5.
    exists l', n. repeat split; auto.
Qed.

(** X2.  Dispatching a click only appends to the call log, and every call
    it appends is made by a click listener on the document's list, to that
    listener's callback, for a node that is not null and has the click's
    target outside it, with an event that arrives not yet prevented. *)
Theorem dispatch_calls_only_outside (event : Click) (doc : Document) :
  exists new,
    calls (dispatch_click event doc) = calls doc ++ new
    /\ forall k, In k new ->
         exists l n,
           In l (listeners doc) /\ type l = "click"%string
           /\ listener l = caller k /\ cb l = callee k
           /\ node l = Some n /\ outside n (target event)
           /\ target (argument k) = target event
           /\ defaultPrevented (argument k) = false.
Proof.
  exists (run_listeners (click_listeners doc) event). split; [reflexivity|].
  intros k Hk. apply run_listeners_sound in Hk
    as (l & n & Hl & H1 & H2 & H3 & H4 & H5 & H6).
  exists l, n.
  assert (In l (listeners doc) /\ type l = "click"%string) as [Hin Ht].
  { unfold click_listeners in Hl. apply in_app_or in Hl as [Hl|Hl];
      apply filter_In in Hl as [Hin Hf]; apply andb_prop in Hf as [Hf _];
      apply String.eqb_eq in Hf; auto. }
  apply contains_false_outside in H4.
  split; [exact Hin|]. split; [exact Ht|]. split; [exact H1|]. split; [exact H2|].
  split; [exact H3|]. split; [exact H4|]. split; assumption.
Qed.




Lemma distinct_after_filter (keep : Listener -> bool) (ls : list Listener) :
  NoDup (map listener ls) -> NoDup (map listener (filter keep ls)).
Proof.
  intros D. induction ls as [|l ls IH]; simpl; [constructor|].
  inversion D as [|? ? Hn D']; subst. specialize (IH D').
  destruct (keep l); simpl; [|exact IH].
  constructor; [|exact IH].
  rewrite in_map_iff. intros [x [E Hx]].
  apply filter_In in Hx as [Hx _]. apply Hn. rewrite <- E. now apply in_map.
Qed.

Lemma well_formed_fresh (doc : Document) :
  well_formed doc ->
  existsb (same_listener "click" (fresh doc) true) (listeners doc) = false.
Proof.
  unfold well_formed. rewrite Forall_forall. intros W.
  apply Bool.not_true_iff_false. rewrite existsb_exists. intros [l [Hl S]].
  unfold same_listener in S. apply andb_prop in S as [S _]. apply andb_prop in S as [_ S].
  apply Nat.eqb_eq in S. destruct (W l Hl) as (_ & _ & L). lia.
Qed.

Lemma distinct_functions_step (doc : Document) (a : Action) :
  well_formed doc -> distinct_functions doc -> distinct_functions (step doc a).
Proof.
  unfold distinct_functions. intros W D. destruct a as [n c|h|e]; simpl.
  - unfold addEventListener; simpl. rewrite (well_formed_fresh doc W). simpl.
    rewrite map_app. simpl. apply NoDup_app; [exact D|repeat constructor; simpl; tauto|].
    intros i Hi [<-|[]]. apply in_map_iff in Hi as [l [E Hl]].
    unfold well_formed in W. rewrite Forall_forall in W.
    destruct (W l Hl) as (_ & _ & L). lia.
  - now apply distinct_after_filter.
  - exact D.
Qed.

Lemma reachable_invariants (acts : list Action) (doc : Document) :
  well_formed doc -> distinct_functions doc ->
  well_formed (run doc acts) /\ distinct_functions (run doc acts).
Proof.
  revert doc. induction acts as [|a acts IH]; intros doc W D; simpl; [now split|].
  apply IH; [now apply well_formed_step|now apply distinct_functions_step].
Qed.

Lemma reachable_from_empty (acts : list Action) :
  well_formed (run empty_document acts) /\ distinct_functions (run empty_document acts).
Proof. apply reachable_invariants; constructor. Qed.

(** X4.  Every call of [click_outside] adds a listener: after any history
    of registrations, teardowns and clicks, the function it creates is not
    yet on the document's list, so [addEventListener] never takes it for a
    duplicate, even when the node and the callback were registered before;
    the new entry goes to the end of the list. *)
Theorem every_registration_is_new (acts : list Action) (n : option Node) (c : Callback) :
  let doc := run empty_document acts in
  let registered := click_outside n c doc in
  installed (snd registered) doc = false
  /\ listeners (fst registered)
     = listeners doc ++ [registration (snd registered) n c].
Proof.
  intros doc registered. destruct (reachable_from_empty acts) as [W _]. fold doc in W.
  pose proof (well_formed_fresh doc W) as F. split; [exact F|].
  unfold registered, click_outside, addEventListener; simpl. now rewrite F.
Qed.







Lemma destroy_keeps_installed (h h' : Handle) (doc : Document) :
  handle_click_of h' <> handle_click_of h ->
  installed h' (destroy h doc) = installed h' doc.
Proof.
  intros N. unfold installed, destroy, removeEventListener; simpl.
  induction (listeners doc) as [|l ls IH]; [reflexivity|]. simpl.
  destruct (same_listener "click" (handle_click_of h) true l) eqn:S; simpl.
  - rewrite IH.
    assert (same_listener "click" (handle_click_of h') true l = false) as ->;
      [|reflexivity].
    unfold same_listener in *. apply andb_prop in S as [S _].
    apply andb_prop in S as [_ S]. apply Nat.eqb_eq in S.
    destruct (Nat.eqb_spec (listener l) (handle_click_of h')) as [E|_];
      [congruence|]. now rewrite Bool.andb_false_r.
  - now rewrite IH.
Qed.

(** X6.  [destroy] removes its own listener and nothing else: after any
    history, the list it leaves is the old one without the entries of its
    function, in the same order, and every other detector is installed
    after it exactly if it was before. *)
Theorem destroy_spares_the_others (acts : list Action) (h h' : Handle) :
  let doc := run empty_document acts in
  listeners (destroy h doc)
  = filter (fun l => negb (Nat.eqb (listener l) (handle_click_of h))) (listeners doc)
  /\ (handle_click_of h' <> handle_click_of h ->
      installed h' (destroy h doc) = installed h' doc).
Proof.
  intros doc. split; [|apply destroy_keeps_installed].
  destruct (reachable_from_empty acts) as [W _]. fold doc in W.
  unfold destroy, removeEventListener; simpl. apply filter_ext_in.
  intros l Hl. unfold well_formed in W. rewrite Forall_forall in W.
  destruct (W l Hl) as (Ht & Hc & _). unfold same_listener. rewrite Ht, Hc. simpl.
  now rewrite Bool.andb_true_r.
Qed.

Lemma destroy_spares_the_others_witness :
  let doc := run empty_document two_detectors in
  let first := {| handle_click_of := 0 |} in
  let second := {| handle_click_of := 1 |} in
  listeners (destroy first doc) = [registration second (Some dialog) close_menu]
  /\ installed second (destroy first doc) = true.
Proof.
  intros doc first second.
  destruct (destroy_spares_the_others two_detectors first second) as [L I].
  split; [exact L|]. fold doc in I. rewrite I; [reflexivity|discriminate].
Defined.
(** X15.  A detector that is installed and torn down at once leaves no
    trace: after any history, [destroy] on the handle that [click_outside]
    has just returned gives back the listener list and the call log as they
    were; only the count of functions created has moved on. *)
Theorem install_then_destroy_restores (acts : list Action) (n : option Node)
  (c : Callback) :
  let doc := run empty_document acts in
  let registered := click_outside n c doc in
  destroy (snd registered) (fst registered)
  = {| listeners := listeners doc; fresh := S (fresh doc); calls := calls doc |}.
Proof.
  intros doc registered. destruct (reachable_from_empty acts) as [W _]. fold doc in W.
  pose proof (well_formed_fresh doc W) as F.
  unfold registered, click_outside, destroy, addEventListener, removeEventListener.
  cbn [fst snd type listener useCapture listeners fresh calls handle_click_of].
  rewrite F. cbn [listeners fresh calls]. f_equal.
  assert (R : same_listener "click" (fresh doc) true
                (registration {| handle_click_of := fresh doc |} n c) = true).
  { unfold same_listener, registration. simpl. now rewrite Nat.eqb_refl. }
  unfold registration in R. cbn [handle_click_of] in R.
  rewrite filter_app. cbn [filter]. rewrite R. cbn [negb]. rewrite app_nil_r.
  apply forallb_filter_id. apply forallb_forall. intros l Hl.
  apply negb_true_iff. apply Bool.not_true_iff_false. intros S.
  assert (existsb (same_listener "click" (fresh doc) true) (listeners doc) = true).
  { apply existsb_exists. now exists l. }
  congruence.
Qed.
End DetectorFacts.

(** ** The mapper against the layout, in exact arithmetic *)

Section ContainFacts.
Import Contain Samples.
Local Open Scope Q_scope.



















End ContainFacts.

(** ** Which operations produce NaN *)

Section NaNFacts.
Import Float64.
Local Open Scope Z_scope.

Lemma shr_1_nonneg (mrs : shr_record) : 0 <= shr_m mrs -> 0 <= shr_m (shr_1 mrs).
Proof.
  destruct mrs as [m r s]. simpl. destruct m as [|p|p]; [reflexivity| |lia].
  intros _. destruct p; simpl; lia.
Qed.

Lemma iter_pos_keeps {A : Type} (P : A -> Prop) (f : A -> A) :
  (forall x, P x -> P (f x)) -> forall p x, P x -> P (iter_pos f p x).
Proof.
  intros F. induction p as [p IH|p IH|]; intros x H; simpl; auto.
Qed.

Lemma shr_fexp_nonneg (m e : Z) (l : location) :
  0 <= m -> 0 <= shr_m (fst (shr_fexp prec emax m e l)).
Proof.
  intros M. unfold shr_fexp, shr.
  assert (S : 0 <= shr_m (shr_record_of_loc m l)).
  { unfold shr_record_of_loc. destruct l as [|[| |]]; exact M. }
  destruct (fexp prec emax (Zdigits2 m + e) - e) as [|p|p]; simpl; try exact S.
  apply (iter_pos_keeps (fun r => 0 <= shr_m r)); [apply shr_1_nonneg|exact S].
Qed.

(** Rounding to a double never gives NaN. *)
Lemma binary_round_aux_number (sx : bool) (mx ex : Z) (lx : location) :
  0 <= mx -> binary_round_aux prec emax sx mx ex lx <> S754_nan.
Proof.
  intros M. unfold binary_round_aux.
  pose proof (shr_fexp_nonneg mx ex lx M) as H1.
  destruct (shr_fexp prec emax mx ex lx) as [mrs' e']. simpl in H1.
  assert (H2 : 0 <= round_nearest_even (shr_m mrs') (loc_of_shr_record mrs')).
  { unfold round_nearest_even. destruct (loc_of_shr_record mrs') as [|[| |]];
      try destruct (Z.even _); lia. }
  pose proof (shr_fexp_nonneg _ e' loc_Exact H2) as H3.
  destruct (shr_fexp prec emax _ e' loc_Exact) as [mrs'' e'']. simpl in H3.
  destruct (shr_m mrs'') as [|p|p]; [discriminate| |lia].
  destruct (e'' <=? emax - prec); discriminate.
Qed.

Lemma binary_normalize_number (m e : Z) (s : bool) :
  binary_normalize prec emax m e s <> S754_nan.
Proof.
  unfold binary_normalize, binary_round. destruct m as [|p|p]; [discriminate| |];
    destruct (shl_align _ _ _) as [mz ez]; apply binary_round_aux_number; lia.
Qed.

(** [a - b] is a number when [a] is finite and [b] is a number. *)
Lemma SFsub_number (a b : spec_float) :
  SFfinite a = true -> b <> S754_nan -> SF64sub a b <> S754_nan.
Proof.
  intros Fa Nb. unfold SF64sub, SFsub.
  destruct a as [sa| | |sa ma ea]; try discriminate;
  destruct b as [sb|sb| |sb mb eb]; try congruence; try discriminate.
  - destruct sa, sb; discriminate.
  - apply binary_normalize_number.
Qed.

(** [a * b] is a number when [a] is a number and [b] is finite and not zero. *)
Lemma SFmul_number (a b : spec_float) (sb : bool) (mb : positive) (eb : Z) :
  a <> S754_nan -> b = S754_finite sb mb eb -> SF64mul a b <> S754_nan.
Proof.
  intros Na ->. unfold SF64mul, SFmul.
  destruct a as [sa|sa| |sa ma ea]; try congruence; try discriminate.
  apply binary_round_aux_number. lia.
Qed.

(** [a / b] is a number when [a] is a number and [b] is finite and not zero. *)
Lemma SFdiv_number (a b : spec_float) (sb : bool) (mb : positive) (eb : Z) :
  a <> S754_nan -> b = S754_finite sb mb eb -> SF64div a b <> S754_nan.
Proof.
  intros Na ->. unfold SF64div, SFdiv.
  destruct a as [sa|sa| |sa ma ea]; try congruence; try discriminate.
  unfold SFdiv_core_binary.
  set (s := _ - _ - _).
  set (m' := match s with Z.pos _ => _ | 0 => _ | Z.neg _ => _ end).
  assert (0 <= m') as M'.
  { unfold m'. destruct s; try lia. apply Z.shiftl_nonneg. lia. }
  pose proof (Z_div_mod m' (Z.pos mb) ltac:(lia)) as D.
  destruct (Z.div_eucl m' (Z.pos mb)) as [q r].
  apply binary_round_aux_number. nia.
Qed.

Lemma not_nan (x : float) : is_nan x = false <-> Prim2SF x <> S754_nan.
Proof.
  rewrite <- is_nan_spec. now destruct (is_nan x).
Qed.

Lemma SF_of_Z_number (n : Z) : SF_of_Z n <> S754_nan.
Proof.
  unfold SF_of_Z. destruct n; [discriminate| |];
    (destruct (_ <=? 53); [discriminate|apply binary_normalize_number]).
Qed.

(** [Math.round] returns NaN for NaN only. *)
Lemma round_number (v : float) : is_nan v = false -> is_nan (round v) = false.
Proof.
  rewrite !not_nan, Prim2SF_round. intros N.
  destruct (Prim2SF v) as [s|s| |s m e]; try congruence; try discriminate.
  unfold SFround. destruct (0 <=? e); [discriminate|].
  destruct (nearest _) eqn:E; [discriminate| |]; rewrite <- E; apply SF_of_Z_number.
Qed.

Lemma finite_number (v : float) : isFinite v = true -> is_nan v = false.
Proof.
  intros F. apply not_nan. unfold isFinite in F. now destruct (Prim2SF v).
Qed.

Lemma nonzero_finite (v : float) :
  isFinite v = true -> ~ (F2Q v == 0)%Q ->
  exists s m e, Prim2SF v = S754_finite s m e.
Proof.
  unfold isFinite, F2Q. intros F NZ.
  destruct (Prim2SF v) as [s|s| |s m e]; try discriminate.
  - exfalso. apply NZ. reflexivity.
  - now exists s, m, e.
Qed.

Lemma sub_number (a b : float) :
  isFinite a = true -> is_nan b = false -> is_nan (a - b)%float = false.
Proof.
  rewrite !not_nan, sub_spec. intros Fa Nb. now apply SFsub_number.
Qed.

Lemma mul_number (a b : float) :
  is_nan a = false -> isFinite b = true -> ~ (F2Q b == 0)%Q ->
  is_nan (a * b)%float = false.
Proof.
  rewrite !not_nan, mul_spec. intros Na Fb NZ.
  destruct (nonzero_finite b Fb NZ) as (s & m & e & E).
  now apply (SFmul_number _ _ s m e).
Qed.

Lemma div_number (a b : float) :
  is_nan a = false -> isFinite b = true -> ~ (F2Q b == 0)%Q ->
  is_nan (a / b)%float = false.
Proof.
  rewrite !not_nan, div_spec. intros Na Fb NZ.
  destruct (nonzero_finite b Fb NZ) as (s & m & e & E).
  now apply (SFdiv_number _ _ s m e).
Qed.

Lemma two_nonzero : isFinite (of_uint 2) = true /\ ~ (F2Q (of_uint 2) == 0)%Q.
Proof. split; [reflexivity|]. intros E. vm_compute in E. discriminate. Qed.
End NaNFacts.

(** ** The mapper on doubles, from the coordinates before rounding *)

Section DoublesFacts.
Import Float64 Samples Session.
Local Open Scope Z_scope.

(** The bounds check on one axis, for a finite coordinate before rounding. *)
Lemma round_on_image (v : float) (n : N) :
  (n < 2 ^ 32)%N -> isFinite v = true ->
  (lt (round v) (of_uint 0) || le (of_uint n) (round v) = false
   <-> (-(1 # 2) <= F2Q v /\ F2Q v < inject_Z (Z.of_N n) - (1 # 2))%Q).
Proof.
  intros B Fv.
  destruct (of_uint_finite 0) as [F0 U0]; [reflexivity|].
  destruct (of_uint_finite n B) as [Fn Un].
  destruct (round_finite v Fv) as [Fx Ux].
  change (@lt float number) with PrimFloat.ltb.
  change (@le float number) with PrimFloat.leb.
  rewrite (ltb_units _ _ Fx F0), (leb_units _ _ Fn Fx), U0, Un, Ux.
  rewrite orb_false_iff, Z.ltb_ge, Z.leb_gt.
  pose proof (F2Q_lt_half v) as L. pose proof (F2Q_ge_size v n) as G.
  set (k := nearest _) in *.
  pose proof (pow2_pos 1074 ltac:(lia)) as P. set (p := 2 ^ 1074) in *.
  split.
  - intros [A C]. split.
    + apply Qnot_lt_le. intros X. apply L in X. nia.
    + destruct (Qlt_le_dec (F2Q v) (inject_Z (Z.of_N n) - (1 # 2))) as [Y|Y]; [exact Y|].
      exfalso. apply G in Y. nia.
  - intros [A C]. split.
    + assert (~ k < 0) by (intros X; apply L in X; now apply Qlt_not_le in X). nia.
    + assert (~ Z.of_N n <= k) by (intros X; apply G in X; now apply Qlt_not_le in C). nia.
Qed.

(** The bounds check on one axis, for an infinite coordinate. *)
Lemma round_infinite (v : float) (n : N) :
  (n < 2 ^ 32)%N -> isFinite v = false -> is_nan v = false ->
  lt (round v) (of_uint 0) || le (of_uint n) (round v) = true.
Proof.
  intros B Fv Nv.
  pose proof (round_pixel_index v n B (round_number v Nv)) as [H _].
  destruct (_ || _); [reflexivity|].
  destruct (H eq_refl) as [F _]. unfold isFinite in F, Fv.
  rewrite Prim2SF_round in F. destruct (Prim2SF v); discriminate.
Qed.

(** The result, axis by axis. *)
Lemma mapper_split (evt : MouseEvent float) :
  let image := currentTarget evt in
  let px := fst (unrounded_point evt) in
  let py := snd (unrounded_point evt) in
  get_coordinates_of_clicked_image evt =
  if (lt (round px) (of_uint 0) || le (of_uint (naturalWidth image)) (round px))
     || (lt (round py) (of_uint 0) || le (of_uint (naturalHeight image)) (round py))
  then None else Some (round px, round py).
Proof.
  intros image px py. unfold get_coordinates_of_clicked_image.
  rewrite clicked_point_rounds. fold image px py. unfold out_of_bounds.
  now rewrite <- !orb_assoc.
Qed.

(** X12.  The result on doubles, from the coordinates before rounding.
    When both products handed to [Math.round] are finite (natural sizes
    being [unsigned long]s), the mapper returns a pair exactly when their
    values [p] and [q] satisfy [-1/2 <= p < naturalWidth - 1/2] and
    [-1/2 <= q < naturalHeight - 1/2], and the pair it returns has the
    values [floor (p + 1/2)] and [floor (q + 1/2)]: the rounding and the
    bounds check are exact, all rounding error of the mapper is in the
    products. *)
Theorem result_from_finite_coordinates (evt : MouseEvent float) :
  let image := currentTarget evt in
  let px := fst (unrounded_point evt) in
  let py := snd (unrounded_point evt) in
  (naturalWidth image < 2 ^ 32)%N -> (naturalHeight image < 2 ^ 32)%N ->
  isFinite px = true -> isFinite py = true ->
  (get_coordinates_of_clicked_image evt <> None <->
     (-(1 # 2) <= F2Q px /\ F2Q px < inject_Z (Z.of_N (naturalWidth image)) - (1 # 2))%Q
     /\ (-(1 # 2) <= F2Q py /\ F2Q py < inject_Z (Z.of_N (naturalHeight image)) - (1 # 2))%Q)
  /\ (forall x y, get_coordinates_of_clicked_image evt = Some (x, y) ->
        (F2Q x == inject_Z (Qfloor (F2Q px + (1 # 2))))%Q
        /\ (F2Q y == inject_Z (Qfloor (F2Q py + (1 # 2))))%Q).
Proof.
  intros image px py Bw Bh Fx Fy.
  pose proof (mapper_split evt) as E. fold image px py in E. rewrite E.
  pose proof (round_on_image px _ Bw Fx) as Hx.
  pose proof (round_on_image py _ Bh Fy) as Hy.
  split.
  - rewrite <- Hx, <- Hy.
    destruct (lt (round px) _ || _), (lt (round py) _ || _); simpl;
      split; try congruence; try (intros [? ?]; discriminate); auto; intros _; discriminate.
  - intros x y.
    destruct (lt (round px) _ || _), (lt (round py) _ || _); try discriminate.
    intros R. injection R as <- <-. split; now apply F2Q_round.
Qed.

Lemma result_from_finite_coordinates_witness :
  get_coordinates_of_clicked_image wide_image_event <> None
  /\ forall x y, get_coordinates_of_clicked_image wide_image_event = Some (x, y) ->
       (F2Q x == inject_Z 100)%Q /\ (F2Q y == inject_Z 50)%Q.
Proof.
  destruct (result_from_finite_coordinates wide_image_event) as [R V];
    try reflexivity.
  split.
  - apply R. repeat split; vm_compute; discriminate.
  - exact V.
Defined.

(** X13.  An overflow is rejected.  On doubles, when a product handed to
    [Math.round] is [Infinity] or [-Infinity], the mapper returns null:
    [Math.round] returns the infinity, which is below 0 or at least the
    natural size. *)
Theorem infinite_coordinate_is_rejected (evt : MouseEvent float) :
  let image := currentTarget evt in
  let px := fst (unrounded_point evt) in
  let py := snd (unrounded_point evt) in
  (naturalWidth image < 2 ^ 32)%N -> (naturalHeight image < 2 ^ 32)%N ->
  (isFinite px = false /\ is_nan px = false)
  \/ (isFinite py = false /\ is_nan py = false) ->
  get_coordinates_of_clicked_image evt = None.
Proof.
  intros image px py Bw Bh H.
  pose proof (mapper_split evt) as E. fold image px py in E. rewrite E.
  destruct H as [[F N]|[F N]].
  - now rewrite (round_infinite px _ Bw F N).
  - rewrite (round_infinite py _ Bh F N). now rewrite orb_true_r.
Qed.

Lemma infinite_coordinate_is_rejected_witness :
  get_coordinates_of_clicked_image overflowing_event = None.
Proof.
  apply (infinite_coordinate_is_rejected overflowing_event); try reflexivity.
  left. split; reflexivity.
Defined.

Lemma unrounded_numbers (evt : MouseEvent float) :
  let image := currentTarget evt in
  let rect := getBoundingClientRect image in
  (naturalWidth image < 2 ^ 32)%N -> (naturalHeight image < 2 ^ 32)%N ->
  isFinite (clientX evt - DOMRect.left rect)%js = true ->
  isFinite (clientY evt - DOMRect.top rect)%js = true ->
  isFinite (DOMRect.width rect) = true ->
  isFinite (DOMRect.height rect) = true ->
  isFinite (xScale_of image) = true -> ~ (F2Q (xScale_of image) == 0)%Q ->
  isFinite (yScale_of image) = true -> ~ (F2Q (yScale_of image) == 0)%Q ->
  is_nan (fst (unrounded_point evt)) = false
  /\ is_nan (snd (unrounded_point evt)) = false.
Proof.
  intros image rect Bw Bh Fx Fy Fw Fh Fxs Nxs Fys Nys.
  destruct two_nonzero as [F2 N2].
  pose proof (finite_number _ (proj1 (of_uint_finite _ Bw))) as Nw.
  pose proof (finite_number _ (proj1 (of_uint_finite _ Bh))) as Nh.
  unfold unrounded_point. fold image rect.
  change (@sub float number) with PrimFloat.sub in *.
  change (@mul float number) with PrimFloat.mul in *.
  change (@div float number) with PrimFloat.div in *.
  destruct (lt _ _); cbn [fst snd]; split.
  - apply mul_number; auto. now apply finite_number.
  - apply mul_number; auto. apply sub_number; auto.
    apply div_number; auto. apply sub_number; auto. apply div_number; auto.
  - apply mul_number; auto. apply sub_number; auto.
    apply div_number; auto. apply sub_number; auto. apply div_number; auto.
  - apply mul_number; auto. now apply finite_number.
Qed.

(** X14.  When no NaN can come out.  On doubles, when the box has finite
    sizes, the pointer's offsets from the box origin ([clientX - left] and
    [clientY - top]) are finite and both scale factors are finite and not
    zero (natural sizes being [unsigned long]s), the mapper returns either
    null or a pair of integers [x] in [[0, naturalWidth)] and [y] in
    [[0, naturalHeight)]; it never returns NaN. *)
Theorem finite_geometry_gives_pixels (evt : MouseEvent float) :
  let image := currentTarget evt in
  let rect := getBoundingClientRect image in
  (naturalWidth image < 2 ^ 32)%N -> (naturalHeight image < 2 ^ 32)%N ->
  isFinite (clientX evt - DOMRect.left rect)%js = true ->
  isFinite (clientY evt - DOMRect.top rect)%js = true ->
  isFinite (DOMRect.width rect) = true ->
  isFinite (DOMRect.height rect) = true ->
  isFinite (xScale_of image) = true -> ~ (F2Q (xScale_of image) == 0)%Q ->
  isFinite (yScale_of image) = true -> ~ (F2Q (yScale_of image) == 0)%Q ->
  match get_coordinates_of_clicked_image evt with
  | None => True
  | Some (x, y) =>
    pixel_index x (naturalWidth image) /\ pixel_index y (naturalHeight image)
  end.
Proof.
  intros image rect Bw Bh Fx Fy Fw Fh Fxs Nxs Fys Nys.
  destruct (unrounded_numbers evt Bw Bh Fx Fy Fw Fh Fxs Nxs Fys Nys) as [Nx Ny].
  pose proof (mapper_split evt) as E. cbv zeta in E. rewrite E. fold image.
  pose proof (round_pixel_index _ _ Bw (round_number _ Nx)) as Px.
  pose proof (round_pixel_index _ _ Bh (round_number _ Ny)) as Py.
  fold image in Px, Py.
  destruct (lt (round (fst _)) _ || _); [exact I|].
  destruct (lt (round (snd _)) _ || _); [exact I|].
  split; [now apply Px|now apply Py].
Qed.

Lemma finite_geometry_gives_pixels_witness :
  match get_coordinates_of_clicked_image square_event with
  | None => True
  | Some (x, y) => pixel_index x 3 /\ pixel_index y 3
  end.
Proof.
  apply (finite_geometry_gives_pixels square_event); try reflexivity;
    intros E; vm_compute in E; discriminate.
Defined.
End DoublesFacts.

(** ** The two branches are mirror images *)

Section SymmetryFacts.
Context {num : Type} `{Number num}.
Local Open Scope js_scope.

Lemma transposed_scales (evt : MouseEvent num) :
  xScale_of (currentTarget (transposed evt)) = yScale_of (currentTarget evt)
  /\ yScale_of (currentTarget (transposed evt)) = xScale_of (currentTarget evt).
Proof. split; reflexivity. Qed.

Lemma transposed_branches (evt : MouseEvent num) :
  height_constrained (transposed evt) = swap_axes (width_constrained evt)
  /\ width_constrained (transposed evt) = swap_axes (height_constrained evt).
Proof. split; reflexivity. Qed.

Lemma out_of_bounds_transposed (evt : MouseEvent num) (p : num * num) :
  out_of_bounds (currentTarget (transposed evt)) (swap_axes p)
  = out_of_bounds (currentTarget evt) p.
Proof.
  destruct p as [x y]. unfold out_of_bounds, swap_axes, transposed. cbn.
  destruct (lt x _), (le _ x), (lt y _), (le _ y); reflexivity.
Qed.

(** X17.  The two branches are mirror images of each other.  For every
    arithmetic (doubles included), when exactly one of [xScale > yScale]
    and [yScale > xScale] holds, exchanging the roles of the two axes in
    the event (pointer, natural size, box) exchanges the two coordinates of
    the result, and keeps a null result null. *)
Theorem axes_are_treated_alike (evt : MouseEvent num) :
  let image := currentTarget evt in
  (xScale_of image >? yScale_of image) <> (yScale_of image >? xScale_of image) ->
  get_coordinates_of_clicked_image (transposed evt)
  = option_map swap_axes (get_coordinates_of_clicked_image evt).
Proof.
  intros image D.
  assert (E : clicked_point (transposed evt) = swap_axes (clicked_point evt)).
  { unfold clicked_point. fold image.
    destruct (transposed_scales evt) as [-> ->]. fold image.
    destruct (transposed_branches evt) as [-> ->].
    destruct (xScale_of image >? yScale_of image), (yScale_of image >? xScale_of image);
      try reflexivity; now contradiction D. }
  unfold get_coordinates_of_clicked_image. rewrite E, out_of_bounds_transposed.
  now destruct (out_of_bounds _ _).
Qed.
End SymmetryFacts.

Section SymmetryOnDoubles.
Import Float64 Samples.

Lemma axes_are_treated_alike_witness :
  get_coordinates_of_clicked_image (transposed wide_image_event)
  = option_map swap_axes (get_coordinates_of_clicked_image wide_image_event).
Proof.
  apply (axes_are_treated_alike wide_image_event). vm_compute. discriminate.
Defined.

(** At a tie both the event and its mirror image take the [else] branch,
    and on doubles the symmetry can fail: the 3x3 image in the 94x94 box,
    clicked at (47, 47), is its own mirror image and maps to (2, 1). *)
Example tie_breaks_the_symmetry :
  get_coordinates_of_clicked_image (transposed square_event)
  <> option_map swap_axes (get_coordinates_of_clicked_image square_event).
Proof. vm_compute. discriminate. Qed.
End SymmetryOnDoubles.
